(* ===================================================================== *)
(* rkcommon::containers::FlatMap<KEY, VALUE>                              *)
(*                                                                       *)
(* A shallow embedding of the vector-backed map of rkcommon and the      *)
(* properties of its key-based and index-based interface.                *)
(*                                                                       *)
(* Conventions of the embedding                                          *)
(*  - std::vector<item_t> is a seq; an iterator is its offset from        *)
(*    begin(), so end() is the size of the vector;                        *)
(*  - a C++ reference into the vector is the position it points at; it    *)
(*    is read and written through the storage it was obtained from;       *)
(*  - a member function is a state transformer that yields a value or     *)
(*    the exception it throws, together with the container it leaves;     *)
(*  - KEY comes with the equality its operator== decides, operator!= is   *)
(*    its negation; VALUE() and KEY() are the value-initialised objects;  *)
(*  - allocation succeeds: std::bad_alloc is outside the model; the check  *)
(*    of a reserve request against max_size() is in it;                   *)
(*  - size_t is nat for sizes and indices; the request of reserve, which  *)
(*    is only compared with max_size(), is a binary number (N), so that   *)
(*    requests near SIZE_MAX can be written down.                         *)
(* ===================================================================== *)

Set Warnings "-notation-overridden,-rewrite-rw".
From mathcomp Require Import ssreflect ssrfun ssrbool eqtype ssrnat seq.
From Stdlib Require String DecimalString.
From Stdlib Require Import BinNat.
Import String.StringSyntax.
Local Open Scope string_scope.
Local Open Scope seq_scope.
Local Open Scope nat_scope.
Local Open Scope bool_scope.

Set Implicit Arguments.
Unset Strict Implicit.
Unset Printing Implicit Defensive.

(* --------------------------------------------------------------------- *)
(* Exceptions of <stdexcept> thrown by the sources                        *)
(* --------------------------------------------------------------------- *)

(* std::out_of_range is thrown by FlatMap::at and by std::vector::at,
   std::length_error by std::vector::reserve, std::runtime_error by the
   NOTIMPLEMENTED macro of common.h. *)
Inductive exception_class :=
  std_out_of_range | std_length_error | std_runtime_error.

Record exception := Exception {
  class_of : exception_class;
  what : String.string
}.

Definition out_of_range (msg : String.string) : exception :=
  Exception std_out_of_range msg.

Definition length_error (msg : String.string) : exception :=
  Exception std_length_error msg.

Definition runtime_error (msg : String.string) : exception :=
  Exception std_runtime_error msg.


(* The message of the exception FlatMap::at throws. *)
Definition key_not_found : String.string :=
  "key wasn't found in FlatMap<>".

Inductive result (T : Type) : Type :=
| Ok (x : T)
| Throw (e : exception).

Arguments Ok {T} x.
Arguments Throw {T} e.

Definition throws T (r : result T) : bool :=
  if r is Throw _ then true else false.

(* --------------------------------------------------------------------- *)
(* What the template asks of its parameters and of the library            *)
(* --------------------------------------------------------------------- *)

(* T(): a type with a value-initialised object. *)
Class DefaultConstructible (T : Type) := value_init : T.

(* The message std::vector::at gives its std::out_of_range, from the
   index and the size; the standard leaves it to the implementation. *)
Class VectorMessages := vector_range_what : nat -> nat -> String.string.

(* max_size() of std::vector<item_t>, and the message of the
   std::length_error that reserve throws on a request beyond it; both are
   the implementation's. *)
Class VectorLimits := {
  vector_max_size : N;
  vector_reserve_what : String.string
}.

(* --------------------------------------------------------------------- *)
(* The container                                                          *)
(* --------------------------------------------------------------------- *)

Section FlatMapDef.

Context {KEY : eqType} {VALUE : Type}.
Context {KEY_default : DefaultConstructible KEY}.
Context {VALUE_default : DefaultConstructible VALUE}.
Context {vector_messages : VectorMessages}.
Context {vector_limits : VectorLimits}.

Definition item_t : Type := (KEY * VALUE)%type.
Definition storage_t : Type := seq item_t.
Definition iterator_t : Type := nat.
Definition citerator_t : Type := nat.

(* A reverse iterator wraps the iterator one past the element it
   designates: rbegin() wraps end(), rend() wraps begin(). *)
Record riterator_t := ReverseIterator { base : iterator_t }.
Definition criterator_t : Type := riterator_t.

Record FlatMap := mkFlatMap { values : storage_t }.

(* item_t& and VALUE& (the second member of an item) into the storage.
   A reference stands for the container as it was when the reference was
   obtained: push_back may move the storage, so a reference is read and
   written before the next insertion only. *)
Record item_ref := ItemRef { item_pos : nat }.
Record value_ref := ValueRef { value_pos : nat }.

Definition second (r : item_ref) : value_ref := ValueRef (item_pos r).

(* Reading through a reference; None is a dangling reference. *)
Definition load_item (r : item_ref) (m : FlatMap) : option item_t :=
  onth (values m) (item_pos r).

Definition load_value (r : value_ref) (m : FlatMap) : option VALUE :=
  omap snd (onth (values m) (value_pos r)).

(* Assigning through a VALUE&: the key of the pair stays. *)
Fixpoint assign_second (s : storage_t) (n : nat) (v : VALUE)
  : option storage_t :=
  match s, n with
  | [::], _ => None
  | (k, _) :: s', 0 => Some ((k, v) :: s')
  | i :: s', n'.+1 => omap (cons i) (assign_second s' n' v)
  end.

Definition store_value (r : value_ref) (v : VALUE) (m : FlatMap)
  : option FlatMap :=
  omap mkFlatMap (assign_second (values m) (value_pos r) v).

(* ----- member functions as state transformers ----- *)

Definition method (T : Type) : Type := FlatMap -> result T * FlatMap.

Definition ret T (x : T) : method T := fun m => (Ok x, m).

Definition throw {T} (e : exception) : method T := fun m => (Throw e, m).

Definition bind A B (c : method A) (f : A -> method B) : method B :=
  fun m =>
    match c m with
    | (Ok a, m') => f a m'
    | (Throw e, m') => (Throw e, m')
    end.

Notation "x <~ c ;; k" := (bind c (fun x => k))
  (at level 61, c at next level, right associativity).
Notation "c ;;; k" := (bind c (fun _ => k))
  (at level 61, right associativity).

Definition returned T (c : method T) (m : FlatMap) : result T := (c m).1.
Definition state_after T (c : method T) (m : FlatMap) : FlatMap := (c m).2.

(* ----- std::vector<item_t> members used on `values` ----- *)

Definition values_begin : method iterator_t := fun m => (Ok 0, m).

Definition values_end : method iterator_t :=
  fun m => (Ok (size (values m)), m).

Definition values_cbegin : method citerator_t := values_begin.
Definition values_cend : method citerator_t := values_end.

Definition values_rbegin : method riterator_t :=
  e <~ values_end ;; ret (ReverseIterator e).

Definition values_rend : method riterator_t :=
  b <~ values_begin ;; ret (ReverseIterator b).

Definition values_crbegin : method criterator_t := values_rbegin.
Definition values_crend : method criterator_t := values_rend.

Definition values_size : method nat := fun m => (Ok (size (values m)), m).

Definition values_empty : method bool :=
  fun m => (Ok (nilp (values m)), m).

Definition values_push_back (i : item_t) : method unit :=
  fun m => (Ok tt, mkFlatMap (rcons (values m) i)).

Definition values_back : method item_ref :=
  fun m => (Ok (ItemRef (size (values m)).-1), m).

(* vector::at checks the index and throws std::out_of_range. *)
Definition values_at (index : nat) : method item_ref :=
  fun m =>
    if index < size (values m) then (Ok (ItemRef index), m)
    else (Throw (out_of_range (vector_range_what index (size (values m)))), m).

(* vector::resize: cut to the first n items, or pad with item_t(). *)
Definition values_resize (n : nat) : method unit :=
  fun m =>
    (Ok tt,
     mkFlatMap (take n (values m)
                ++ nseq (n - size (values m)) (value_init, value_init))).

Definition values_clear : method unit := fun _ => (Ok tt, mkFlatMap [::]).

(* vector::reserve throws std::length_error on a request beyond
   max_size() and changes the capacity only otherwise. *)
Definition values_reserve (n : N) : method unit :=
  fun m =>
    if N.ltb vector_max_size n then
      (Throw (length_error vector_reserve_what), m)
    else (Ok tt, m).

(* ----- <algorithm> on ranges of `values` ----- *)

Definition range (first last : iterator_t) (s : storage_t) : storage_t :=
  take (last - first) (drop first s).

(* std::find_if: the first iterator of [first, last) whose item
   satisfies p, last when there is none. *)
Definition std_find_if (first last : iterator_t) (p : pred item_t)
  : method iterator_t :=
  fun m => (Ok (first + find p (range first last (values m))), m).

(* std::stable_partition: the items of [first, last) satisfying p come
   first, each group in its former order; yields the start of the second
   group. *)
Definition std_stable_partition (first last : iterator_t) (p : pred item_t)
  : method iterator_t :=
  fun m =>
    let s := values m in
    let mid := range first last s in
    (Ok (first + count p mid),
     mkFlatMap (take first s
                ++ (filter p mid ++ filter (predC p) mid)
                ++ drop last s)).

Definition std_distance (first last : iterator_t) : nat := last - first.

(* ----- Helper functions ----- *)

Definition lookup (key : KEY) : method iterator_t :=
  b <~ values_begin ;;
  e <~ values_end ;;
  std_find_if b e (fun item => item.1 == key).

Definition lookup_const (key : KEY) : method citerator_t :=
  b <~ values_cbegin ;;
  e <~ values_cend ;;
  std_find_if b e (fun item => item.1 == key).

(* ----- Key-based lookups ----- *)

Definition at_ (key : KEY) : method value_ref :=
  itr <~ lookup key ;;
  e <~ values_end ;;
  if itr == e then throw (out_of_range key_not_found)
  else ret (ValueRef itr).

Definition at_const (key : KEY) : method value_ref :=
  itr <~ lookup_const key ;;
  e <~ values_end ;;
  if itr == e then throw (out_of_range key_not_found)
  else ret (ValueRef itr).

Definition operator_index (key : KEY) : method value_ref :=
  itr <~ lookup key ;;
  e <~ values_end ;;
  if itr == e then
    values_push_back (key, value_init) ;;;
    b <~ values_back ;;
    ret (second b)
  else ret (ValueRef itr).

(* The const overload has the statements of the other one. *)
Definition operator_index_const (key : KEY) : method value_ref :=
  itr <~ lookup_const key ;;
  e <~ values_end ;;
  if itr == e then
    values_push_back (key, value_init) ;;;
    b <~ values_back ;;
    ret (second b)
  else ret (ValueRef itr).

(* ----- Index-based lookups ----- *)

Definition at_index (index : nat) : method item_ref := values_at index.
Definition at_index_const (index : nat) : method item_ref := values_at index.

(* ----- Property queries ----- *)

Definition size_ : method nat := values_size.

(* empty() is declared size_t: the bool of vector::empty converts. *)
Definition empty : method nat :=
  b <~ values_empty ;; ret (nat_of_bool b).

Definition contains (key : KEY) : method bool :=
  itr <~ lookup_const key ;;
  e <~ values_cend ;;
  ret (itr != e).

(* ----- Storage mutation ----- *)

Definition erase (key : KEY) : method unit :=
  b <~ values_begin ;;
  e <~ values_end ;;
  itr <~ std_stable_partition b e (fun i => i.1 != key) ;;
  b' <~ values_begin ;;
  values_resize (std_distance b' itr).

Definition clear : method unit := values_clear.

Definition reserve (n : N) : method unit := values_reserve n.

(* ----- Iterators ----- *)

Definition cbegin : method citerator_t := values_cbegin.
Definition begin : method iterator_t := values_begin.
Definition begin_const : method citerator_t := cbegin.

Definition cend : method citerator_t := values_cend.
Definition end_ : method iterator_t := values_end.
Definition end_const : method citerator_t := cend.

Definition crbegin : method criterator_t := values_crbegin.
Definition rbegin : method riterator_t := values_rbegin.
Definition rbegin_const : method criterator_t := crbegin.

Definition crend : method criterator_t := values_crend.
Definition rend : method riterator_t := values_rend.
Definition rend_const : method criterator_t := crend.

(* ----- The public interface as a type of calls ----- *)

Inductive operation :=
| CallAt (key : KEY)
| CallAtConst (key : KEY)
| CallOperatorIndex (key : KEY)
| CallOperatorIndexConst (key : KEY)
| CallAtIndex (index : nat)
| CallAtIndexConst (index : nat)
| CallSize
| CallEmpty
| CallContains (key : KEY)
| CallErase (key : KEY)
| CallClear
| CallReserve (n : N)
| CallBegin | CallBeginConst | CallCbegin
| CallEnd | CallEndConst | CallCend
| CallRbegin | CallRbeginConst | CallCrbegin
| CallRend | CallRendConst | CallCrend.

(* What a caller sees of a call once the returned value is dropped: the
   exception in flight, if any, and the container afterwards. *)
Definition outcome T (c : method T) (m : FlatMap)
  : option exception * FlatMap :=
  match c m with
  | (Ok _, m') => (None, m')
  | (Throw e, m') => (Some e, m')
  end.

Definition call (o : operation) : FlatMap -> option exception * FlatMap :=
  match o with
  | CallAt key => outcome (at_ key)
  | CallAtConst key => outcome (at_const key)
  | CallOperatorIndex key => outcome (operator_index key)
  | CallOperatorIndexConst key => outcome (operator_index_const key)
  | CallAtIndex index => outcome (at_index index)
  | CallAtIndexConst index => outcome (at_index_const index)
  | CallSize => outcome size_
  | CallEmpty => outcome empty
  | CallContains key => outcome (contains key)
  | CallErase key => outcome (erase key)
  | CallClear => outcome clear
  | CallReserve n => outcome (reserve n)
  | CallBegin => outcome begin
  | CallBeginConst => outcome begin_const
  | CallCbegin => outcome cbegin
  | CallEnd => outcome end_
  | CallEndConst => outcome end_const
  | CallCend => outcome cend
  | CallRbegin => outcome rbegin
  | CallRbeginConst => outcome rbegin_const
  | CallCrbegin => outcome crbegin
  | CallRend => outcome rend
  | CallRendConst => outcome rend_const
  | CallCrend => outcome crend
  end.

(* ----- Vocabulary of the statements ----- *)

(* The keys in storage order. *)
Definition keys (m : FlatMap) : seq KEY := [seq i.1 | i <- values m].

(* FlatMap() = default: the empty storage. *)
Definition FlatMap_default : FlatMap := mkFlatMap [::].

(* m[key] = v, when v is given; m[key] alone otherwise.  None only if the
   reference operator[] returned could not be written through. *)
Definition insert_or_assign (key : KEY) (v : option VALUE) (m : FlatMap)
  : option FlatMap :=
  match operator_index key m with
  | (Ok r, m') => if v is Some x then store_value r x m' else Some m'
  | (Throw _, _) => None
  end.

(* A run of such statements, left to right. *)
Fixpoint insert_or_assign_all (l : seq (KEY * option VALUE)) (m : FlatMap)
  : option FlatMap :=
  match l with
  | [::] => Some m
  | (key, v) :: l' =>
      if insert_or_assign key v m is Some m' then insert_or_assign_all l' m'
      else None
  end.

(* m[k]; for each key in turn, and m.erase(k); for each key in turn. *)
Definition operator_index_all (ks : seq KEY) (m : FlatMap) : FlatMap :=
  foldl (fun m' k => state_after (operator_index k) m') m ks.

Definition erase_all (ks : seq KEY) (m : FlatMap) : FlatMap :=
  foldl (fun m' k => state_after (erase k) m') m ks.

(* ----- Stepping the iterators that begin() and rbegin() hand out ----- *)

(* *it and ++it on a vector iterator; None is an iterator that cannot be
   dereferenced (end() or beyond). *)
Definition iterator_deref (it : iterator_t) (m : FlatMap) : option item_t :=
  onth (values m) it.

Definition iterator_next (it : iterator_t) : iterator_t := it.+1.

(* *rit is the element before base(), ++rit moves base() one back. *)
Definition riterator_deref (rit : riterator_t) (m : FlatMap)
  : option item_t :=
  if base rit is b.+1 then onth (values m) b else None.

Definition riterator_next (rit : riterator_t) : riterator_t :=
  ReverseIterator (base rit).-1.

(* ----- Reading a value ----- *)

(* v = m.at(key): the reference at returns is read at once, in the
   container at returned it from; None when at throws. *)
Definition read_at (key : KEY) (m : FlatMap) : option VALUE :=
  match at_ key m with
  | (Ok r, m') => load_value r m'
  | (Throw _, _) => None
  end.

(* ----- Runs of calls ----- *)

(* The member functions that are not const-like: the ones whose body
   writes to `values`. *)
Definition mutating (o : operation) : bool :=
  match o with
  | CallOperatorIndex _ | CallOperatorIndexConst _
  | CallErase _ | CallClear => true
  | _ => false
  end.

(* One call after the other, an exception being caught by the caller
   before the next call. *)
Definition call_all (os : seq operation) (m : FlatMap) : FlatMap :=
  foldl (fun m' o => (call o m').2) m os.




End FlatMapDef.

Arguments item_t : clear implicits.
Arguments storage_t : clear implicits.
Arguments FlatMap : clear implicits.
Arguments method : clear implicits.
Arguments operation : clear implicits.

(* ----- An instantiation to run the definitions on ----- *)

(* unsigned(): value-initialisation of an arithmetic type is zero. *)
#[export] Instance nat_DefaultConstructible : DefaultConstructible nat := 0.

(* %zu: a size_t in decimal. *)
Definition decimal (n : nat) : String.string :=
  DecimalString.NilZero.string_of_uint (Nat.to_uint n).

(* libstdc++: the message of vector::_M_range_check. *)
#[export] Instance libstdcxx_messages : VectorMessages :=
  fun n sz =>
    String.append "vector::_M_range_check: __n (which is "
      (String.append (decimal n)
         (String.append ") >= this->size() (which is "
            (String.append (decimal sz) ")"))).

(* libstdc++ on LP64 for an item of 8 bytes, std::pair<unsigned, unsigned>:
   max_size() is PTRDIFF_MAX / 8, and reserve names itself. *)
#[export] Instance libstdcxx_limits : VectorLimits := {
  vector_max_size := 1152921504606846975%num;
  vector_reserve_what := "vector::reserve"
}.

(* The container after m[1] = 10; m[2] = 20; m[3] = 30; *)
Definition sample : FlatMap nat nat :=
  mkFlatMap [:: (1, 10); (2, 20); (3, 30)].


(* Two pairs under one key, as index-based writes can leave them. *)
Definition sample_dup : FlatMap nat nat :=
  mkFlatMap [:: (1, 10); (2, 20); (1, 30)].

(* ===================================================================== *)
(* Properties                                                             *)
(* ===================================================================== *)

Section FlatMapTheory.

Context {KEY : eqType} {VALUE : Type}.
Context {KEY_default : DefaultConstructible KEY}.
Context {VALUE_default : DefaultConstructible VALUE}.
Context {vector_messages : VectorMessages}.
Context {vector_limits : VectorLimits}.

Implicit Types (key : KEY) (v : VALUE) (m : FlatMap KEY VALUE).
Implicit Types (s : storage_t KEY VALUE).

(* ----- what each member function computes ----- *)

Lemma range_all s : range 0 (size s) s = s.
Proof. by rewrite /range subn0 drop0 take_size. Qed.

Lemma find_key key s :
  find (fun item => item.1 == key) s = index key [seq i.1 | i <- s].
Proof. by rewrite /index find_map; apply: eq_find => i. Qed.

Lemma lookupE key m : lookup key m = (Ok (index key (keys m)), m).
Proof.
by rewrite /lookup /bind /= /std_find_if range_all add0n find_key.
Qed.

Lemma lookup_constE key m : lookup_const key m = lookup key m.
Proof. by []. Qed.

Lemma index_keys_end key m :
  (index key (keys m) == size (values m)) = (key \notin keys m).
Proof.
rewrite -[size (values m)](size_map fst) -/(keys m) -index_mem.
by rewrite ltn_neqAle index_size andbT negbK.
Qed.

Lemma at_E key m :
  at_ key m =
  (if key \in keys m then Ok (ValueRef (index key (keys m)))
   else Throw (out_of_range key_not_found), m).
Proof.
rewrite /at_ /bind lookupE /= index_keys_end.
by case: (key \in keys m).
Qed.

Lemma at_constE key m : at_const key m = at_ key m.
Proof. by []. Qed.

Lemma operator_indexE key m :
  operator_index key m =
  if key \in keys m then (Ok (ValueRef (index key (keys m))), m)
  else (Ok (ValueRef (size (values m))),
        mkFlatMap (rcons (values m) (key, value_init))).
Proof.
rewrite /operator_index /bind lookupE /= index_keys_end.
by case: (key \in keys m) => //=; rewrite size_rcons.
Qed.

Lemma operator_index_constE key m :
  operator_index_const key m = operator_index key m.
Proof. by []. Qed.

Lemma containsE key m : contains key m = (Ok (key \in keys m), m).
Proof.
by rewrite /contains /bind lookup_constE lookupE /= index_keys_end negbK.
Qed.

Lemma eraseE key m :
  erase key m = (Ok tt, mkFlatMap [seq i <- values m | i.1 != key]).
Proof.
rewrite /erase /bind /= /std_stable_partition /std_distance /=.
rewrite range_all take0 drop_size cats0 add0n subn0 /values_resize /=.
rewrite size_cat !size_filter take_size_cat ?size_filter //.
by rewrite subnDA subnn sub0n cats0.
Qed.

Lemma size_E m : size_ m = (Ok (size (values m)), m).
Proof. by []. Qed.

Lemma at_indexE index m :
  at_index index m =
  (if index < size (values m) then Ok (ItemRef index)
   else Throw (out_of_range (vector_range_what index (size (values m)))), m).
Proof. by rewrite /at_index /values_at; case: ifP. Qed.

Lemma at_index_constE index m : at_index_const index m = at_index index m.
Proof. by []. Qed.

(* ----- references ----- *)

Lemma onth_index_keys key m :
  key \in keys m ->
  exists v, onth (values m) (index key (keys m)) = Some (key, v).
Proof.
rewrite /keys; elim: (values m) => [|[k w] s IH] //=.
rewrite in_cons [k == key]eq_sym; case: eqP => [->|_] /=; first by exists w.
exact: IH.
Qed.

Lemma assign_secondP s n v :
  n < size s ->
  exists s',
    [/\ assign_second s n v = Some s',
        [seq i.1 | i <- s'] = [seq i.1 | i <- s],
        omap snd (onth s' n) = Some v
      & size s' = size s].
Proof.
elim: s n => [|[k w] s IH] [|n] //=.
  by move=> _; exists ((k, v) :: s).
rewrite ltnS => /IH [s' [-> eqk eqv eqs]].
by exists ((k, w) :: s'); split; rewrite //= ?eqk ?eqs.
Qed.

(* What operator[] leaves behind: the key is stored, and the reference
   returned designates the first pair under it. *)
Lemma operator_index_post key m :
  exists m1,
    [/\ operator_index key m = (Ok (ValueRef (index key (keys m1))), m1),
        key \in keys m1
      & index key (keys m1) < size (values m1)].
Proof.
rewrite operator_indexE; case: ifP => [kin|/negbT kout].
  by exists m; split=> //; rewrite -(size_map fst) index_mem.
exists (mkFlatMap (rcons (values m) (key, value_init))).
have idx : index key (keys (mkFlatMap (rcons (values m) (key, value_init))))
           = size (values m).
  rewrite /keys /= map_rcons -cats1 index_cat (negbTE kout) /= eqxx addn0.
  by rewrite size_map.
by rewrite idx /keys /= map_rcons mem_rcons mem_head size_rcons.
Qed.

(* ----- the keys along runs of calls ----- *)

Lemma size_keys m : size (keys m) = size (values m).
Proof. by rewrite /keys size_map. Qed.

Lemma keys_operator_index key m :
  keys (state_after (operator_index key) m) =
  if key \in keys m then keys m else rcons (keys m) key.
Proof.
rewrite /state_after operator_indexE; case: ifP => //= _.
by rewrite /keys /= map_rcons.
Qed.

Lemma insert_or_assignP key (ov : option VALUE) m :
  exists m',
    insert_or_assign key ov m = Some m'
    /\ keys m' = (if key \in keys m then keys m else rcons (keys m) key).
Proof.
rewrite -keys_operator_index /insert_or_assign /state_after.
have [m1 [-> _ lt]] := operator_index_post key m.
case: ov => [x|]; last by exists m1.
have [s' [eqs eqk _ _]] := assign_secondP x lt.
by exists (mkFlatMap s'); rewrite /store_value /= eqs /keys /= eqk.
Qed.

Lemma uniq_step key (ks : seq KEY) :
  uniq ks -> uniq (if key \in ks then ks else rcons ks key).
Proof. by case: ifP => // kout; rewrite rcons_uniq kout. Qed.

Lemma insert_or_assign_all_uniq (l : seq (KEY * option VALUE)) m :
  uniq (keys m) ->
  exists m', insert_or_assign_all l m = Some m' /\ uniq (keys m').
Proof.
elim: l m => [|[k ov] l IH] m um /=; first by exists m.
have [m1 [-> keq]] := insert_or_assignP k ov m.
by apply: IH; rewrite keq; exact: uniq_step.
Qed.

Lemma operator_index_all_uniq (ks : seq KEY) m :
  uniq (keys m) -> uniq (keys (operator_index_all ks m)).
Proof.
elim: ks m => [|k ks IH] m um //=.
by apply: IH; rewrite keys_operator_index; exact: uniq_step.
Qed.

Lemma keys_operator_index_all (ks : seq KEY) m :
  uniq (keys m ++ ks) -> keys (operator_index_all ks m) = keys m ++ ks.
Proof.
elim: ks m => [|k ks IH] m /=; first by rewrite cats0.
rewrite -cat_rcons => u.
have kout : (k \in keys m) = false.
  by move: u; rewrite cat_uniq rcons_uniq => /and3P[/andP[/negbTE-> _] _ _].
by rewrite IH keys_operator_index kout.
Qed.

Lemma keys_erase key m :
  keys (state_after (erase key) m) = [seq k <- keys m | k != key].
Proof. by rewrite /state_after eraseE /keys /= filter_map. Qed.

Lemma keys_erase_all (ks : seq KEY) m :
  keys (erase_all ks m) = [seq k <- keys m | k \notin ks].
Proof.
elim: ks m => [|k ks IH] m /=; first by rewrite filter_predT.
rewrite IH keys_erase -filter_predI; apply: eq_filter => x /=.
by rewrite in_cons negb_or andbC.
Qed.

Lemma count_mem_sub (s t : seq KEY) :
  uniq s -> uniq t -> {subset t <= s} -> count [in t] s = size t.
Proof.
move=> us ut sub; rewrite -size_filter; apply/perm_size/uniq_perm => //.
  exact: filter_uniq.
by move=> x; rewrite mem_filter; case xt: (x \in t) => //=; exact: sub.
Qed.

(* ----- claims ----- *)

(** C1. Round trip: for every key and value, the statement m[key] = v
    (operator[] followed by an assignment through the reference it
    returns) succeeds, and at(key), const or not, then returns a
    reference under which v is read; the lookup leaves the container as
    the assignment left it. *)
Theorem round_trip_operator_index_at key v m :
  exists r m1 m2 r',
    [/\ operator_index key m = (Ok r, m1),
        store_value r v m1 = Some m2,
        at_ key m2 = (Ok r', m2),
        at_const key m2 = (Ok r', m2)
      & load_value r' m2 = Some v].
Proof.
have [m1 [-> kin lt]] := operator_index_post key m.
have [s' [eqs eqk eqv _]] := assign_secondP v lt.
exists (ValueRef (index key (keys m1))), m1, (mkFlatMap s').
exists (ValueRef (index key (keys m1))).
have keq : keys (mkFlatMap s') = keys m1 by rewrite /keys /= eqk.
by split; rewrite ?at_constE ?at_E /store_value /load_value /= ?eqs ?keq ?kin.
Qed.

(** C10. Frame of operator[]: on a key already stored the sequence of
    pairs is left exactly as it was; on a key not stored the only change
    is the pair (key, VALUE()) appended at the end.  No exception is
    thrown in either case. *)
Theorem operator_index_frame key m :
  values (state_after (operator_index key) m) =
    (if key \in keys m then values m
     else rcons (values m) (key, value_init))
  /\ (key \in keys m -> state_after (operator_index key) m = m)
  /\ (key \notin keys m ->
      state_after (operator_index key) m
      = mkFlatMap (values m ++ [:: (key, value_init)]))
  /\ throws (returned (operator_index key) m) = false.
Proof.
rewrite /state_after /returned operator_indexE.
by case: ifP => //= _; rewrite cats1.
Qed.

(** C5. The fail-fast accessor: at(key) throws exactly when no stored
    pair has the key, and what it throws is std::out_of_range with the
    message of FlatMap; when some pair has the key it returns a reference
    to the value of the first such pair.  The const overload does the
    same, and neither changes the container. *)
Theorem at_raises_iff key m :
  [/\ throws (returned (at_ key) m) = (key \notin keys m),
      key \notin keys m ->
        returned (at_ key) m = Throw (out_of_range key_not_found),
      key \in keys m ->
        exists r w,
          [/\ returned (at_ key) m = Ok r,
              load_value r m = Some w,
              onth (values m) (value_pos r) = Some (key, w)
            & forall j w', j < value_pos r ->
                onth (values m) j <> Some (key, w')],
      at_const key m = at_ key m
    & state_after (at_ key) m = m].
Proof.
rewrite /returned /state_after at_constE at_E /=; split=> //.
- by case: ifP.
- by move/negbTE->.
move=> kin; rewrite kin.
have [w ew] := onth_index_keys kin.
exists (ValueRef (index key (keys m))), w.
split; rewrite /load_value /= ?ew // => j w' lt ej.
have js : j < size (values m) by rewrite -onthTE ej.
have := before_find key lt.
by rewrite /keys (nth_map (key, w)) // (@onth_nth _ (key, w) _ _ _ ej) /= eqxx.
Qed.

(** C6. Index bounds: with n the number size() returns, at_index(i)
    returns a reference to the i-th stored pair when i < n and throws
    std::out_of_range (that of std::vector::at) for every i >= n; on an
    empty container already for i = 0.  The const overload does the
    same, and neither changes the container. *)
Theorem at_index_raises_iff index m :
  returned size_ m = Ok (size (values m))
  /\ throws (returned (at_index index) m) = (size (values m) <= index)
  /\ (size (values m) <= index ->
        returned (at_index index) m
        = Throw (out_of_range (vector_range_what index (size (values m)))))
  /\ (index < size (values m) ->
        exists r, [/\ returned (at_index index) m = Ok r,
                      load_item r m = onth (values m) index
                    & load_item r m <> None])
  /\ throws (returned (at_index 0) (FlatMap_default : FlatMap KEY VALUE))
  /\ at_index_const index m = at_index index m
  /\ state_after (at_index index) m = m.
Proof.
rewrite /returned /state_after at_index_constE !at_indexE /=.
do !split=> //.
- by rewrite ltnNge; case: (_ <= index).
- by rewrite ltnNge => ->.
move=> lt; rewrite lt; exists (ItemRef index); split=> //.
by rewrite /load_item /=; move: (onthTE (values m) index); rewrite lt; case: onth.
Qed.

(** C9. clear() leaves a container of size 0 on which empty() answers
    true (1, the return type being size_t); a second clear() right after
    leaves the same empty container, with the same answers. *)
Theorem clear_idempotent m :
  let m1 := state_after clear m in
  let m2 := state_after clear m1 in
  [/\ returned clear m = Ok tt /\ returned clear m1 = Ok tt,
      returned size_ m1 = Ok 0 /\ returned empty m1 = Ok (nat_of_bool true),
      m2 = m1,
      m1 = FlatMap_default
    & returned size_ m2 = Ok 0 /\ returned empty m2 = Ok (nat_of_bool true)].
Proof. by []. Qed.

(** C2. erase(key) never throws and leaves exactly the pairs whose key
    differs from key, with their values and in their former order (the
    stored sequence filtered); contains(key) is false afterwards, every
    other key is contained afterwards exactly if it was before, and on a
    container without the key nothing changes. *)
Theorem erase_correct key m :
  let m' := state_after (erase key) m in
  [/\ returned (erase key) m = Ok tt,
      returned (contains key) m' = Ok false,
      values m' = [seq i <- values m | i.1 != key],
      forall k2, k2 != key ->
        returned (contains k2) m' = returned (contains k2) m
        /\ [seq i <- values m' | i.1 == k2] = [seq i <- values m | i.1 == k2]
    & key \notin keys m -> m' = m].
Proof.
rewrite /state_after /returned eraseE; cbv zeta; rewrite [(_, _).2]/=.
have keysE : keys (mkFlatMap [seq i <- values m | i.1 != key])
             = [seq k <- keys m | k != key].
  by rewrite /keys /= filter_map.
split=> //.
- by rewrite containsE /= keysE mem_filter eqxx.
- move=> k2 ne; rewrite !containsE /= keysE mem_filter ne; split=> //.
  rewrite -filter_predI; apply: eq_filter => i /=.
  by case: eqP => // ->; rewrite ne.
move=> kout; case: m kout {keysE} => s /= kout; congr mkFlatMap.
apply/all_filterP.
by rewrite -(@eq_all _ (preim fst (predC1 key))) // -all_map all_predC has_pred1.
Qed.

(** C3. Uniqueness: starting from the empty container, any finite run
    of operator[] calls, each with or without an assignment through the
    reference it returned, goes through and leaves no key stored twice:
    for every key at most one stored pair has it. *)
Theorem uniqueness_invariant (l : seq (KEY * option VALUE)) (ks : seq KEY) :
  (exists m : FlatMap KEY VALUE,
     [/\ insert_or_assign_all l FlatMap_default = Some m,
         uniq (keys m)
       & forall k, count (fun i => i.1 == k) (values m) <= 1])
  /\ uniq (keys (operator_index_all ks
                   (FlatMap_default : FlatMap KEY VALUE)))
  /\ (forall k,
        count (fun i => i.1 == k)
          (values (operator_index_all ks
                     (FlatMap_default : FlatMap KEY VALUE))) <= 1).
Proof.
have cnt (m : FlatMap KEY VALUE) :
    uniq (keys m) -> forall k, count (fun i => i.1 == k) (values m) <= 1.
  move=> um k; rewrite -(@eq_count _ (preim fst (pred1 k))) // -count_map.
  by rewrite -/(keys m) count_uniq_mem //; case: (k \in keys m).
have u0 : uniq (keys (FlatMap_default : FlatMap KEY VALUE)) by [].
split; last by split; [|apply: cnt]; exact: operator_index_all_uniq.
have [m [em um]] := insert_or_assign_all_uniq l u0.
by exists m; split=> //; exact: cnt.
Qed.

(** C4. Size accounting: from the empty container, operator[] on n
    pairwise distinct keys and then erase on m pairwise distinct keys
    among them leaves a container whose size() is n - m. *)
Theorem size_accounting (inserted erased : seq KEY) :
  uniq inserted -> uniq erased -> {subset erased <= inserted} ->
  returned size_
    (erase_all erased
       (operator_index_all inserted (FlatMap_default : FlatMap KEY VALUE)))
  = Ok (size inserted - size erased).
Proof.
move=> ui ue sub; rewrite /returned size_E /= -size_keys keys_erase_all.
rewrite keys_operator_index_all // size_filter.
rewrite -(count_mem_sub ui ue sub) -(count_predC [in erased] inserted).
by rewrite addKn.
Qed.

(* ----- the calls that throw ----- *)

Lemma outcome_at key m :
  outcome (at_ key) m =
  (if key \in keys m then None else Some (out_of_range key_not_found), m).
Proof. by rewrite /outcome at_E; case: ifP. Qed.

Lemma outcome_at_index index m :
  outcome (at_index index) m =
  (if index < size (values m) then None
   else Some (out_of_range (vector_range_what index (size (values m)))), m).
Proof. by rewrite /outcome at_indexE; case: ifP. Qed.

Lemma outcome_operator_index key m :
  outcome (operator_index key) m =
  (None, state_after (operator_index key) m).
Proof. by rewrite /outcome /state_after operator_indexE; case: ifP. Qed.

Lemma outcome_erase key m :
  outcome (erase key) m = (None, state_after (erase key) m).
Proof. by rewrite /outcome /state_after eraseE. Qed.

Lemma outcome_contains key m : outcome (contains key) m = (None, m).
Proof. by rewrite /outcome containsE. Qed.

Lemma outcome_reserve n m :
  outcome (reserve n) m =
  (if N.ltb vector_max_size n then Some (length_error vector_reserve_what)
   else None, m).
Proof. by rewrite /outcome /reserve /values_reserve; case: ifP. Qed.

(* Every call, case by case: which exception, and which container. *)
Lemma callE (o : operation KEY) m :
  call o m =
  match o with
  | CallAt key | CallAtConst key =>
      (if key \in keys m then None else Some (out_of_range key_not_found), m)
  | CallAtIndex index | CallAtIndexConst index =>
      (if index < size (values m) then None
       else Some (out_of_range (vector_range_what index (size (values m)))),
       m)
  | CallOperatorIndex key | CallOperatorIndexConst key =>
      (None, state_after (operator_index key) m)
  | CallErase key => (None, state_after (erase key) m)
  | CallClear => (None, FlatMap_default)
  | CallReserve n =>
      (if N.ltb vector_max_size n
       then Some (length_error vector_reserve_what) else None, m)
  | _ => (None, m)
  end.
Proof.
case: o => *; rewrite /call;
  first [ exact: outcome_at | exact: outcome_operator_index
        | exact: outcome_at_index | exact: outcome_contains
        | exact: outcome_erase | exact: outcome_reserve | by [] ].
Qed.

(** C8. Atomicity on failure: whatever the call of the public interface
    and the container, a call that throws leaves the container exactly
    as it found it, hence also everything size, contains, at and
    at_index report of it; operator[], const or not, never throws. *)
Theorem failure_atomicity (o : operation KEY) m :
  (forall e, (call o m).1 = Some e -> (call o m).2 = m)
  /\ (forall key,
        (call (CallOperatorIndex key) m).1 = None
        /\ (call (CallOperatorIndexConst key) m).1 = None)
  /\ ((call o m).1 = None \/ (call o m).2 = m).
Proof.
split; last split.
- move=> e; rewrite callE.
  by case: o => // [key|key|index|index|n]; case: ifP.
- by move=> key; rewrite !callE.
by rewrite callE; case: o => * /=; first [by left | by right].
Qed.


End FlatMapTheory.

(* ===================================================================== *)
(* The statements at work on FlatMap<unsigned, unsigned>                  *)
(* ===================================================================== *)

(* The scenario of three insertions and one erasure: sizes, the pairs by
   index, and the failure of at on the erased key. *)
Example scenario :
  let m3 := insert_or_assign_all [:: (1, Some 10); (2, Some 20); (3, Some 30)]
              (FlatMap_default : FlatMap nat nat) in
  let m2 := state_after (erase 2) sample in
  [/\ m3 = Some sample,
      returned size_ sample = Ok 3 /\ load_item (ItemRef 1) sample = Some (2, 20),
      returned size_ m2 = Ok 2 /\ returned (contains 2) m2 = Ok false,
      values m2 = [:: (1, 10); (3, 30)]
    & returned (at_ 2) m2 = Throw (out_of_range key_not_found)].
Proof. by []. Qed.

Lemma erase_correct_witness :
  [/\ 7 \notin keys sample,
      state_after (erase 7) sample = sample,
      3 != 2
    & returned (contains 3) (state_after (erase 2) sample)
      = returned (contains 3) sample].
Proof.
have [_ _ _ _ noop] := erase_correct 7 sample.
have [_ _ _ others _] := erase_correct 2 sample.
split.
- by [].
- exact: noop.
- by [].
- by have [] := others 3 isT.
Defined.

Lemma size_accounting_witness :
  [/\ uniq [:: 1; 2; 3], uniq [:: 3; 1], {subset [:: 3; 1] <= [:: 1; 2; 3]}
    & returned size_
        (erase_all [:: 3; 1]
           (operator_index_all [:: 1; 2; 3]
              (FlatMap_default : FlatMap nat nat)))
      = Ok 1].
Proof.
have sub : {subset [:: 3; 1] <= [:: 1; 2; 3]}.
  by move=> x; rewrite !inE => /orP[] /eqP->.
split; [by [] | by [] | exact: sub |].
exact: (size_accounting (inserted := [:: 1; 2; 3]) (erased := [:: 3; 1])
          isT isT sub).
Defined.

Lemma at_raises_iff_witness :
  [/\ 2 \in keys sample,
      exists r w,
        [/\ returned (at_ 2) sample = Ok r,
            load_value r sample = Some w,
            onth (values sample) (value_pos r) = Some (2, w)
          & forall j w', j < value_pos r ->
              onth (values sample) j <> Some (2, w')],
      7 \notin keys sample
    & returned (at_ 7) sample = Throw (out_of_range key_not_found)].
Proof.
have [_ _ hit _ _] := at_raises_iff 2 sample.
have [_ miss _ _ _] := at_raises_iff 7 sample.
by split; [|apply: hit| |apply: miss].
Defined.

Lemma at_index_raises_iff_witness :
  [/\ 1 < size (values sample),
      exists r, [/\ returned (at_index 1) sample = Ok r,
                    load_item r sample = onth (values sample) 1
                  & load_item r sample <> None],
      size (values sample) <= 3
    & returned (at_index 3) sample
      = Throw (out_of_range (vector_range_what 3 (size (values sample))))].
Proof.
have [_ [_ [_ [inside _]]]] := at_index_raises_iff 1 sample.
have [_ [_ [outside _]]] := at_index_raises_iff 3 sample.
by split; [|apply: inside| |apply: outside].
Defined.

Lemma failure_atomicity_witness :
  (call (CallAt 7) sample).1 = Some (out_of_range key_not_found)
  /\ (call (CallAt 7) sample).2 = sample.
Proof.
have [atomic _] := failure_atomicity (CallAt 7) sample.
by split; [|apply: (atomic (out_of_range key_not_found))].
Defined.

Lemma operator_index_frame_witness :
  [/\ 2 \in keys sample,
      state_after (operator_index 2) sample = sample,
      7 \notin keys sample
    & state_after (operator_index 7) sample
      = mkFlatMap (values sample ++ [:: (7, value_init)])].
Proof.
have [_ [hit _]] := operator_index_frame 2 sample.
have [_ [_ [miss _]]] := operator_index_frame 7 sample.
by split; [|apply: hit| |apply: miss].
Defined.



(* ===================================================================== *)
(* Further properties: how the member functions compose                   *)
(* ===================================================================== *)

Section FlatMapLaws.

Context {KEY : eqType} {VALUE : Type}.
Context {KEY_default : DefaultConstructible KEY}.
Context {VALUE_default : DefaultConstructible VALUE}.
Context {vector_messages : VectorMessages}.
Context {vector_limits : VectorLimits}.

Implicit Types (key : KEY) (v : VALUE) (m : FlatMap KEY VALUE).
Implicit Types (s : storage_t KEY VALUE).

(* ----- shared facts ----- *)

Lemma FlatMap_ext m m' : values m = values m' -> m = m'.
Proof. by case: m m' => s [s'] /= ->. Qed.

Lemma values_erase key m :
  values (state_after (erase key) m) = [seq i <- values m | i.1 != key].
Proof. by rewrite /state_after eraseE. Qed.

Lemma values_operator_index key m :
  values (state_after (operator_index key) m) =
  if key \in keys m then values m else rcons (values m) (key, value_init).
Proof. by rewrite /state_after operator_indexE; case: ifP. Qed.

Lemma filter_key_notin key s :
  key \notin [seq i.1 | i <- s] -> [seq i <- s | i.1 != key] = s.
Proof.
move=> kout; apply/all_filterP.
by rewrite -(@eq_all _ (preim fst (predC1 key))) // -all_map all_predC has_pred1.
Qed.

Lemma returned_at_keys key m m' :
  keys m = keys m' -> returned (at_ key) m = returned (at_ key) m'.
Proof. by move=> eqk; rewrite /returned !at_E /= eqk. Qed.

Lemma onth_rcons_lt s (x : item_t KEY VALUE) i :
  i < size s -> onth (rcons s x) i = onth s i.
Proof. by move=> lt; rewrite -cats1 onth_cat lt. Qed.

Lemma onth_rcons_size s (x : item_t KEY VALUE) :
  onth (rcons s x) (size s) = Some x.
Proof. by rewrite -cats1 onth_cat ltnn subnn. Qed.

Lemma index_rcons_in (ks : seq KEY) k1 k2 :
  k1 \in ks -> index k1 (rcons ks k2) = index k1 ks.
Proof. by move=> kin; rewrite -cats1 index_cat kin. Qed.

Lemma index_rcons_out (ks : seq KEY) k :
  k \notin ks -> index k (rcons ks k) = size ks.
Proof.
by move=> kout; rewrite -cats1 index_cat (negbTE kout) /= eqxx addn0.
Qed.

Lemma assign_second_other s s' n v j :
  assign_second s n v = Some s' -> j != n -> onth s' j = onth s j.
Proof.
elim: s s' n j => [|[k w] s IH] s' [|n] [|j] //=.
- by case=> <-.
- by case: (assign_second s n v) => //= t [<-].
- case E: (assign_second s n v) => [t|] //= [<-] /=.
  by rewrite eqSS; exact: IH E.
Qed.

Lemma assign_second_keys s s' n v :
  assign_second s n v = Some s' ->
  [seq i.1 | i <- s'] = [seq i.1 | i <- s] /\ size s' = size s.
Proof.
elim: s s' n => [|[k w] s IH] s' [|n] //=; first by case=> <-.
case E: (assign_second s n v) => [t|] //= [<-] /=.
by have [-> ->] := IH _ _ E.
Qed.

(* ----- erase ----- *)

(** X1. Erasing a key twice is erasing it once, and two erasures can be
    done in either order: the container left is the same. *)
Theorem erase_idempotent_commutes k1 k2 m :
  state_after (erase k1) (state_after (erase k1) m)
    = state_after (erase k1) m
  /\ state_after (erase k1) (state_after (erase k2) m)
     = state_after (erase k2) (state_after (erase k1) m).
Proof.
split; apply: FlatMap_ext; rewrite !values_erase ?filter_id //.
by rewrite -!filter_predI; apply: eq_filter => i /=; rewrite andbC.
Qed.

(** X2. erase(key) removes every pair stored under the key, also when
    index-based writes have left several: size() drops by the number of
    pairs that had the key, and no pair with the key is left. *)
Theorem erase_size key m :
  let m' := state_after (erase key) m in
  [/\ returned size_ m'
      = Ok (size (values m) - count (fun i => i.1 == key) (values m)),
      size (values m') + count (fun i => i.1 == key) (values m)
      = size (values m),
      count (fun i => i.1 == key) (values m') = 0
    & size (values m') <= size (values m)].
Proof.
move=> m'.
have vm' : values m' = [seq i <- values m | i.1 != key] by exact: values_erase.
have split_count :
    size [seq i <- values m | i.1 != key]
    + count (fun i => i.1 == key) (values m) = size (values m).
  rewrite size_filter addnC -[RHS](count_predC (fun i => i.1 == key)).
  by congr (_ + _); apply: eq_count => i.
have none : count (fun i => i.1 == key) (values m') = 0.
  rewrite vm' count_filter (@eq_count _ _ pred0) ?count_pred0 // => i /=.
  by case: eqP.
rewrite /returned size_E vm'; split=> //=.
- by rewrite -split_count addnK.
- by rewrite -vm'.
by rewrite -split_count leq_addr.
Qed.

(* ----- the three key lookups ----- *)

(** X3. contains, at and operator[] agree: contains(key) is true exactly
    when at(key) does not throw; on a key that is stored operator[] is
    at (same reference, container untouched); and after operator[](key)
    the key is contained and at(key) returns the reference operator[]
    returned. *)
Theorem lookups_agree key m :
  [/\ returned (contains key) m = Ok (~~ throws (returned (at_ key) m)),
      key \in keys m -> operator_index key m = at_ key m,
      returned (contains key) (state_after (operator_index key) m) = Ok true
    & returned (at_ key) (state_after (operator_index key) m)
      = returned (operator_index key) m].
Proof.
have [m1 [e1 kin _]] := operator_index_post key m.
split.
- by rewrite /returned containsE at_E /=; case: ifP.
- by move=> kin0; rewrite operator_indexE at_E kin0.
- by rewrite /returned /state_after e1 containsE /= kin.
by rewrite /returned /state_after e1 at_E /= kin.
Qed.

(** X4. The member functions other than operator[], erase and clear never
    change the container, whether they return or throw: at, at_index,
    size, empty, contains, reserve and the twelve iterator getters leave
    the stored sequence as it was. *)
Theorem queries_do_not_mutate (o : operation KEY) m :
  ~~ mutating o -> (call o m).2 = m.
Proof. by rewrite callE; case: o. Qed.

(* ----- operator[] composed with itself and with erase ----- *)

(** X5. operator[] is idempotent: a second operator[](key) right after
    the first returns the same reference and leaves the container the
    first one left. *)
Theorem operator_index_idempotent key m :
  operator_index key (state_after (operator_index key) m)
  = operator_index key m.
Proof.
have [m1 [e1 kin _]] := operator_index_post key m.
by rewrite /state_after e1 /= operator_indexE kin.
Qed.

(** X6. Inserting a key that was not stored and erasing it again gives
    back the container one started from. *)
Theorem erase_undoes_operator_index key m :
  key \notin keys m ->
  state_after (erase key) (state_after (operator_index key) m) = m.
Proof.
move=> kout; apply: FlatMap_ext.
rewrite values_erase values_operator_index (negbTE kout).
by rewrite filter_rcons /= eqxx /=; exact: filter_key_notin.
Qed.

(** X7. erase(key) followed by operator[](key) does not bring the old
    value back: the key is stored once, as the last pair, with the
    value-initialised VALUE(), which is what at(key) then reads; the
    other pairs are those from before, in their order. *)
Theorem operator_index_after_erase key m :
  let m' := state_after (operator_index key) (state_after (erase key) m) in
  [/\ values m' = rcons [seq i <- values m | i.1 != key] (key, value_init),
      returned (at_ key) m' = Ok (ValueRef (size (values m')).-1),
      load_value (ValueRef (size (values m')).-1) m' = Some value_init
    & count (fun i => i.1 == key) (values m') = 1].
Proof.
move=> m'.
have kout : key \notin keys (state_after (erase key) m).
  by rewrite keys_erase mem_filter eqxx.
have vm' : values m'
           = rcons [seq i <- values m | i.1 != key] (key, value_init).
  by rewrite /m' values_operator_index (negbTE kout) values_erase.
have km' : keys m' = rcons (keys (state_after (erase key) m)) key.
  by rewrite /m' keys_operator_index (negbTE kout).
split=> //.
- rewrite /returned at_E km' mem_rcons mem_head /= index_rcons_out //.
  by rewrite vm' size_rcons size_keys values_erase.
- by rewrite /load_value vm' size_rcons /= onth_rcons_size.
rewrite vm' -cats1 count_cat /= eqxx count_filter.
rewrite (@eq_count _ _ pred0) ?count_pred0 // => i /=.
by case: eqP.
Qed.

(* ----- what a write under one key does to the other keys ----- *)

Lemma at_in_bounds key m r :
  returned (at_ key) m = Ok r ->
  [/\ key \in keys m, value_pos r = index key (keys m)
    & value_pos r < size (values m)].
Proof.
rewrite /returned at_E /=; case: ifP => // kin [<-] /=.
by rewrite -size_keys index_mem.
Qed.

Lemma read_atE key m :
  read_at key m
  = if key \in keys m then load_value (ValueRef (index key (keys m))) m
    else None.
Proof. by rewrite /read_at at_E; case: ifP. Qed.

Lemma throws_atE key m :
  throws (returned (at_ key) m) = (key \notin keys m).
Proof. by rewrite /returned at_E /=; case: ifP. Qed.

Lemma read_at_rcons_other k1 k2 (d : VALUE) m :
  k1 != k2 ->
  read_at k1 (mkFlatMap (rcons (values m) (k2, d))) = read_at k1 m.
Proof.
move=> ne; rewrite !read_atE /keys /= map_rcons mem_rcons in_cons.
rewrite (negbTE ne) /=; case: ifP => // kin.
rewrite index_rcons_in // /load_value /= onth_rcons_lt //.
by rewrite -(size_map fst) index_mem.
Qed.

(** X8. operator[] on one key leaves the lookups of every other key as
    they were: at(k1) throws afterwards exactly if it threw before, the
    value read with at(k1) afterwards is the value read with it before,
    and contains(k1) answers the same.  References are not carried over
    the insertion: each at is read in its own container. *)
Theorem operator_index_keeps_other_lookups k1 k2 m :
  k1 != k2 ->
  let m' := state_after (operator_index k2) m in
  [/\ throws (returned (at_ k1) m') = throws (returned (at_ k1) m),
      read_at k1 m' = read_at k1 m
    & returned (contains k1) m' = returned (contains k1) m].
Proof.
move=> ne m'.
have vm' := values_operator_index k2 m; rewrite -/m' in vm'.
case kin2: (k2 \in keys m) vm' => vm'.
  by have -> : m' = m by exact: FlatMap_ext.
have -> : m' = mkFlatMap (rcons (values m) (k2, value_init)).
  exact: FlatMap_ext.
split.
- rewrite !throws_atE /keys /= map_rcons mem_rcons in_cons.
  by rewrite (negbTE ne).
- exact: read_at_rcons_other.
rewrite /returned !containsE /= /keys /= map_rcons mem_rcons in_cons.
by rewrite (negbTE ne).
Qed.

(** X9. Assignment under one key does not touch the others: after
    m[key] = v, for every other key at throws exactly if it threw
    before and the value read with at is the value read with it before;
    the container has one pair more if key was not stored, none
    otherwise.  References are not carried over the assignment: each at
    is read in its own container. *)
Theorem assign_keeps_other_lookups key k2 v m m' :
  insert_or_assign key (Some v) m = Some m' -> k2 != key ->
  [/\ throws (returned (at_ k2) m') = throws (returned (at_ k2) m),
      read_at k2 m' = read_at k2 m
    & size (values m') = size (values m) + (key \notin keys m)].
Proof.
rewrite /insert_or_assign operator_indexE /store_value => ins ne.
have other (n : FlatMap KEY VALUE) s' p :
    assign_second (values n) p v = Some s' ->
    (k2 \in keys n -> index k2 (keys n) != p) ->
    read_at k2 (mkFlatMap s') = read_at k2 n.
  move=> E away; have [eqk _] := assign_second_keys E.
  rewrite !read_atE {1 2}/keys /= eqk -/(keys n).
  case: ifP => // kin2; rewrite /load_value /=.
  by rewrite (assign_second_other E) // away.
case kin: (key \in keys m) ins => /=.
  case E: (assign_second _ _ _) => [s'|] //= [<-].
  have [eqk eqs] := assign_second_keys E.
  split; rewrite /= ?eqs ?addn0 //.
    by rewrite !throws_atE /keys /= eqk.
  apply: other E _ => kin2; apply: contra ne => /eqP eqi.
  by rewrite -(nth_index key kin2) eqi nth_index.
case E: (assign_second _ _ _) => [s'|] //= [<-].
have [eqk eqs] := assign_second_keys E.
split; rewrite /= ?eqs ?size_rcons ?addn1 //.
  rewrite !throws_atE /keys /= eqk /= map_rcons mem_rcons in_cons.
  by rewrite (negbTE ne).
rewrite -(read_at_rcons_other value_init m ne).
apply: (other (mkFlatMap (rcons (values m) (key, value_init)))) E _ => kin2.
move: kin2; rewrite /keys /= map_rcons mem_rcons in_cons (negbTE ne) /= => kin2.
by rewrite index_rcons_in // neq_ltn -(size_map fst (values m)) index_mem kin2.
Qed.

(** X10. On a container without duplicate keys, index-based and
    key-based access meet: if at_index(i) designates the pair (key, v),
    then at(key) returns the reference to the value of that very pair,
    v is read under it, and contains(key) is true. *)
Theorem index_and_key_access_agree i key v m r :
  uniq (keys m) ->
  returned (at_index i) m = Ok r -> load_item r m = Some (key, v) ->
  [/\ returned (at_ key) m = Ok (second r),
      load_value (second r) m = Some v
    & returned (contains key) m = Ok true].
Proof.
move=> um ai li.
have [lt er] : i < size (values m) /\ r = ItemRef i.
  by move: ai; rewrite /returned at_indexE /=; case: ifP => // lt [<-].
have ei : onth (values m) i = Some (key, v) by move: li; rewrite er.
have ki : nth key (keys m) i = key.
  by rewrite /keys (nth_map (key, v)) // (@onth_nth _ (key, v) _ _ _ ei).
have idx : index key (keys m) = i.
  by rewrite -{1}ki index_uniq // size_keys.
have kin : key \in keys m by rewrite -index_mem idx size_keys.
by rewrite /returned containsE at_E /= kin idx er /load_value /= ei.
Qed.

(* ----- runs of calls ----- *)

Lemma call_uniq (o : operation KEY) m :
  uniq (keys m) -> uniq (keys (call o m).2).
Proof.
move=> um; rewrite callE.
case: o => *; rewrite /= ?keys_operator_index ?keys_erase //;
  by [apply: uniq_step | apply: filter_uniq].
Qed.

(** X11. The public member functions keep the keys pairwise distinct:
    if no key is stored twice, then after any finite run of calls
    (lookups, insertions, erasures, clear, reserve, iterator getters,
    throwing or not) none is; in particular after any run of calls on a
    default-constructed container. *)
Theorem calls_keep_keys_unique (os : seq (operation KEY)) m :
  (uniq (keys m) -> uniq (keys (call_all os m)))
  /\ uniq (keys (call_all os (FlatMap_default : FlatMap KEY VALUE))).
Proof.
have step : forall n, uniq (keys n) -> uniq (keys (call_all os n)).
  elim: os {m} => [|o os IH] n un //=.
  by apply: IH; exact: call_uniq.
by split; [exact: step | exact: step].
Qed.

Lemma values_operator_index_all (ks : seq KEY) m :
  uniq (keys m ++ ks) ->
  values (operator_index_all ks m)
  = values m ++ [seq (k, value_init) | k <- ks].
Proof.
elim: ks m => [|k ks IH] m /=; first by rewrite !cats0.
rewrite -cat_rcons => u.
have kout : (k \in keys m) = false.
  by move: u; rewrite cat_uniq rcons_uniq => /and3P[/andP[/negbTE-> _] _ _].
have u' : uniq (keys (state_after (operator_index k) m) ++ ks).
  by rewrite keys_operator_index kout.
by rewrite (IH _ u') values_operator_index kout cat_rcons.
Qed.

(** X12. Insertion order is index order: after operator[] on pairwise
    distinct keys, on a default-constructed container, the i-th stored
    pair is the i-th key inserted with the value VALUE(); size() is the
    number of keys and at_index(i) designates that pair. *)
Theorem insertion_order (ks : seq KEY) :
  uniq ks ->
  let m := operator_index_all ks (FlatMap_default : FlatMap KEY VALUE) in
  [/\ values m = [seq (k, value_init) | k <- ks],
      returned size_ m = Ok (size ks)
    & forall i, i < size ks ->
        exists r, returned (at_index i) m = Ok r
                  /\ load_item r m
                     = omap (fun k => (k, value_init)) (onth ks i)].
Proof.
move=> u m.
have vm : values m = [seq (k, value_init) | k <- ks].
  by rewrite /m values_operator_index_all.
split=> //; first by rewrite /returned size_E /= vm size_map.
move=> i lt; exists (ItemRef i).
rewrite /returned at_indexE /load_item /= vm size_map lt; split=> //.
by elim: ks i {u m vm lt} => [|k ks IH] [|i] //=.
Qed.

Lemma values_erase_all (ks : seq KEY) m :
  values (erase_all ks m) = [seq i <- values m | i.1 \notin ks].
Proof.
elim: ks m => [|k ks IH] m /=; first by rewrite filter_predT.
rewrite IH values_erase -filter_predI; apply: eq_filter => x /=.
by rewrite in_cons negb_or andbC.
Qed.

(** X13. clear() is erase on every stored key: erasing the keys of the
    container one after the other leaves the container clear() leaves,
    the default-constructed one, on which at throws and contains is
    false for every key and at_index throws for every index. *)
Theorem clear_is_erase_all m :
  let m0 := state_after clear m in
  [/\ erase_all (keys m) m = m0,
      m0 = FlatMap_default,
      forall key, throws (returned (at_ key) m0)
                  /\ returned (contains key) m0 = Ok false
    & forall index, throws (returned (at_index index) m0)].
Proof.
split=> //; apply: FlatMap_ext; rewrite values_erase_all /=.
have: [seq i.1 | i <- [seq i <- values m | i.1 \notin keys m]] = [::].
  rewrite -(filter_map fst (fun k => k \notin keys m)) -/(keys m).
  rewrite -(@eq_in_filter _ pred0) ?filter_pred0 //.
  by move=> k /= ->.
by case: [seq i <- _ | _].
Qed.

(* ----- iterators ----- *)

Lemma iter_iterator_next n (it : iterator_t) :
  iter n iterator_next it = it + n.
Proof. by elim: n => [|n /= ->]; rewrite ?addn0 ?addnS. Qed.

Lemma iter_riterator_next n (rit : riterator_t) :
  iter n riterator_next rit = ReverseIterator (base rit - n).
Proof.
elim: n => [|n /= ->]; first by rewrite subn0; case: rit.
by rewrite /riterator_next /= subnS.
Qed.

(** X14. Forward iteration: begin() and end(), in all their overloads,
    delimit exactly size() steps; the iterator reached after i steps
    from begin() designates the i-th stored pair, the one at_index(i)
    designates, and after size() steps it is end(), which designates
    nothing; begin() equals end() exactly when empty() answers true. *)
Theorem forward_iteration m :
  exists b e : iterator_t,
    [/\ begin m = (Ok b, m) /\ end_ m = (Ok e, m),
        [/\ begin_const m = begin m, cbegin m = begin m,
            end_const m = end_ m & cend m = end_ m],
        iter (size (values m)) iterator_next b = e
        /\ returned size_ m = Ok (std_distance b e),
        forall i, iterator_deref (iter i iterator_next b) m
                  = load_item (ItemRef i) m
      & iterator_deref e m = None
        /\ returned empty m = Ok (nat_of_bool (b == e))].
Proof.
exists 0, (size (values m)); split=> //.
- by rewrite iter_iterator_next add0n /returned size_E /std_distance subn0.
- by move=> i; rewrite iter_iterator_next add0n.
split; first by rewrite /iterator_deref onth_default.
by rewrite /returned /empty /bind /= /nilp eq_sym.
Qed.

(** X15. Reverse iteration: rbegin() and rend(), in all their
    overloads, delimit exactly size() steps; the reverse iterator
    reached after i < size() steps from rbegin() designates the pair at
    index size() - 1 - i, so the pairs come in the reverse of the stored
    order, and after size() steps it is rend(). *)
Theorem reverse_iteration m :
  exists rb re : riterator_t,
    [/\ rbegin m = (Ok rb, m) /\ rend m = (Ok re, m),
        [/\ rbegin_const m = rbegin m, crbegin m = rbegin m,
            rend_const m = rend m & crend m = rend m],
        iter (size (values m)) riterator_next rb = re,
        forall i, i < size (values m) ->
          riterator_deref (iter i riterator_next rb) m
          = load_item (ItemRef (size (values m) - i.+1)) m
      & forall i, i < size (values m) ->
          riterator_deref (iter i riterator_next rb) m
          = onth (rev (values m)) i].
Proof.
exists (ReverseIterator (size (values m))), (ReverseIterator 0).
have step i : i < size (values m) ->
    riterator_deref (iter i riterator_next
                       (ReverseIterator (size (values m)))) m
    = onth (values m) (size (values m) - i.+1).
  move=> lt; rewrite iter_riterator_next /riterator_deref /=.
  by rewrite -(subnSK lt).
split=> //; first by rewrite iter_riterator_next /= subnn.
move=> i lt; rewrite step // !onthE map_rev nth_rev ?size_map //.
Qed.

(* ----- more on erase ----- *)

(** X16. Erasing a list of keys depends on which keys are listed only,
    not on their order nor on repetitions: two lists with the same
    members leave the same container. *)
Theorem erase_all_same_members (ks ks' : seq KEY) m :
  ks =i ks' -> erase_all ks m = erase_all ks' m.
Proof.
move=> same; apply: FlatMap_ext; rewrite !values_erase_all.
by apply: eq_filter => i /=; rewrite same.
Qed.

Lemma onth_filter_uniq key s :
  uniq [seq i.1 | i <- s] ->
  forall i,
    onth [seq x <- s | x.1 != key] i
    = onth s (if i < index key [seq x.1 | x <- s] then i else i.+1).
Proof.
elim: s => [|[k w] s IH] //=; first by move=> _ [].
case/andP=> kout us i; rewrite [k == key]eq_sym.
case: (altP (key =P k)) => [ek|ne] /=.
  by rewrite filter_key_notin // ek.
by case: i => [|i] //=; rewrite IH // ltnS; case: ifP.
Qed.

(** X17. What erase does to indices, on a container without duplicate
    keys: the pairs stored before the erased key keep their index and
    the pairs stored after it move down by one. *)
Theorem erase_shifts_indices key m :
  uniq (keys m) ->
  let p := index key (keys m) in
  let m' := state_after (erase key) m in
  forall i,
    load_item (ItemRef i) m'
    = load_item (ItemRef (if i < p then i else i.+1)) m.
Proof.
move=> um p m' i.
by rewrite /load_item /m' values_erase /= onth_filter_uniq.
Qed.

(* ----- assignment ----- *)

Lemma assign_second_twice s s1 n v1 v2 :
  assign_second s n v1 = Some s1 ->
  assign_second s1 n v2 = assign_second s n v2.
Proof.
elim: s s1 n => [|[k w] s IH] s1 [|n] //=; first by case=> <-.
case E: (assign_second s n v1) => [t|] //= [<-] /=.
by rewrite (IH _ _ E).
Qed.

(** X18. The last assignment wins: m[key] = v1; m[key] = v2; leaves
    the container that m[key] = v2; alone leaves. *)
Theorem assign_twice key v1 v2 m :
  insert_or_assign_all [:: (key, Some v1); (key, Some v2)] m
  = insert_or_assign key (Some v2) m.
Proof.
have [m1 [e1 kin lt]] := operator_index_post key m.
rewrite /= /insert_or_assign e1 /store_value /=.
case E: (assign_second _ _ v1) => [s1|] /=; last first.
  by have [s' [E' _ _ _]] := assign_secondP v1 lt; rewrite E' in E.
have [eqk _] := assign_second_keys E.
have k1 : keys (mkFlatMap s1) = keys m1 by rewrite /keys /= eqk.
rewrite operator_indexE k1 kin /= (assign_second_twice _ E).
by case: (assign_second _ _ _).
Qed.

(** X19. Writing through at: when at(key) returns a reference, the
    assignment at(key) = v goes through, at(key) then returns the same
    reference with v read under it, and the keys and their order are
    those from before. *)
Theorem at_assign_round_trip key v m r :
  returned (at_ key) m = Ok r ->
  exists m',
    [/\ store_value r v m = Some m',
        returned (at_ key) m' = Ok r,
        load_value r m' = Some v
      & keys m' = keys m].
Proof.
move=> ar; have [kin pos lt] := at_in_bounds ar.
have [s' [E eqk eqv _]] := assign_secondP v lt.
exists (mkFlatMap s').
have km : keys (mkFlatMap s') = keys m by rewrite /keys /= eqk.
split=> //; first by rewrite /store_value E.
by rewrite -ar; apply: returned_at_keys.
Qed.

End FlatMapLaws.

(* ----- the laws at work on FlatMap<unsigned, unsigned> ----- *)

Lemma lookups_agree_witness :
  2 \in keys sample /\ operator_index 2 sample = at_ 2 sample.
Proof.
have [_ hit _ _] := lookups_agree 2 sample.
by split; [|apply: hit].
Defined.

Lemma queries_do_not_mutate_witness :
  ~~ mutating (CallAtIndex 9 : operation nat)
  /\ (call (CallAtIndex 9) sample).2 = sample.
Proof. by split; [|apply: queries_do_not_mutate]. Defined.

Lemma erase_undoes_operator_index_witness :
  7 \notin keys sample
  /\ state_after (erase 7) (state_after (operator_index 7) sample) = sample.
Proof. by split; [|apply: erase_undoes_operator_index]. Defined.

Lemma operator_index_keeps_other_lookups_witness :
  2 != 7
  /\ read_at 2 (state_after (operator_index 7) sample) = read_at 2 sample.
Proof.
have ne : 2 != 7 by [].
have [_ same _] := operator_index_keeps_other_lookups sample ne.
by split; [|apply: same].
Defined.

Lemma assign_keeps_other_lookups_witness :
  [/\ insert_or_assign 2 (Some 99) sample
      = Some (mkFlatMap [:: (1, 10); (2, 99); (3, 30)]),
      3 != 2
    & read_at 3 (mkFlatMap [:: (1, 10); (2, 99); (3, 30)])
      = read_at 3 sample].
Proof.
have ins : insert_or_assign 2 (Some 99) sample
           = Some (mkFlatMap [:: (1, 10); (2, 99); (3, 30)]) by [].
have ne : 3 != 2 by [].
have [_ same _] := assign_keeps_other_lookups ins ne.
by split; [| |apply: same].
Defined.

Lemma index_and_key_access_agree_witness :
  [/\ uniq (keys sample),
      returned (at_index 1) sample = Ok (ItemRef 1),
      load_item (ItemRef 1) sample = Some (2, 20)
    & returned (at_ 2) sample = Ok (second (ItemRef 1))].
Proof.
have um : uniq (keys sample) by [].
have ai : returned (at_index 1) sample = Ok (ItemRef 1) by [].
have li : load_item (ItemRef 1) sample = Some (2, 20) by [].
have [agree _ _] := index_and_key_access_agree um ai li.
by split; [| | |apply: agree].
Defined.

Lemma calls_keep_keys_unique_witness :
  uniq (keys sample)
  /\ uniq (keys (call_all [:: CallOperatorIndex 7; CallAt 9; CallErase 1;
                             CallOperatorIndex 7; CallReserve 64%num]
                   sample)).
Proof.
have [keep _] :=
  calls_keep_keys_unique
    [:: CallOperatorIndex 7; CallAt 9; CallErase 1;
        CallOperatorIndex 7; CallReserve 64%num] sample.
by split; [|apply: keep].
Defined.

Lemma insertion_order_witness :
  uniq [:: 5; 3; 8]
  /\ values (operator_index_all [:: 5; 3; 8]
               (FlatMap_default : FlatMap nat nat))
     = [:: (5, 0); (3, 0); (8, 0)].
Proof.
have u : uniq [:: 5; 3; 8] by [].
have [vals _ _] := insertion_order (VALUE := nat) u.
by split; [|apply: vals].
Defined.

Lemma reverse_iteration_witness :
  exists rb : riterator_t,
    [/\ rbegin sample = (Ok rb, sample),
        0 < size (values sample)
      & riterator_deref (iter 0 riterator_next rb) sample = Some (3, 30)].
Proof.
have [rb [re [[erb _] _ _ _ rev_order]]] := reverse_iteration sample.
by exists rb; split; [| |rewrite rev_order].
Defined.

Lemma erase_all_same_members_witness :
  [:: 1; 2] =i [:: 2; 1; 1]
  /\ erase_all [:: 1; 2] sample = erase_all [:: 2; 1; 1] sample.
Proof.
have same : [:: 1; 2] =i [:: 2; 1; 1].
  by move=> x; rewrite !inE; case: (x == 1); case: (x == 2).
by split; [|apply: erase_all_same_members].
Defined.

Lemma erase_shifts_indices_witness :
  uniq (keys sample)
  /\ load_item (ItemRef 1) (state_after (erase 2) sample)
     = load_item (ItemRef 2) sample.
Proof.
have um : uniq (keys sample) by [].
by split; [|apply: (erase_shifts_indices 2 um 1)].
Defined.

Lemma at_assign_round_trip_witness :
  returned (at_ 2) sample = Ok (ValueRef 1)
  /\ exists m',
       [/\ store_value (ValueRef 1) 99 sample = Some m',
           returned (at_ 2) m' = Ok (ValueRef 1),
           load_value (ValueRef 1) m' = Some 99
         & keys m' = keys sample].
Proof.
have ar : returned (at_ 2) sample = Ok (ValueRef 1) by [].
by split; [|apply: at_assign_round_trip].
Defined.
